(** * idOS, AVR port: system timer and rtimer (arch/avr/timer_arch.h)

    Timer1 of the ATmega is the 16-bit counter behind the system clock
    ([u_now], [m_now]) and the one-shot rtimer.  The header fixes the
    build-time constants and the unit-conversion and interrupt-control
    macros; this development embeds them and checks the timing
    specification against them. *)

From Stdlib Require Import ZArith Lia List Bool.
From Stdlib Require String.
Import ListNotations.

Local Open Scope Z_scope.

(** ** Integer arithmetic of avr-gcc

    On AVR [int] has 16 bits and [unsigned long] has 32.  Every macro of
    the header mixes an [UL] constant into its expression, so by the usual
    arithmetic conversions each operator below is evaluated on
    [unsigned long]: a product wraps modulo 2^32, a quotient truncates. *)
Module AVR.

Definition ULONG_BITS : Z := 32.

Definition wrap (bits z : Z) : Z := z mod 2 ^ bits.

(** Conversion to [unsigned long] / [uint32_t]. *)
Definition to_ulong (z : Z) : Z := wrap ULONG_BITS z.

Definition umul (a b : Z) : Z := to_ulong (a * b).
Definition uadd (a b : Z) : Z := to_ulong (a + b).
Definition udiv (a b : Z) : Z := to_ulong a / to_ulong b.

End AVR.
Import AVR.

(** ** Build-time constants and conversion macros *)

(** [typedef uint32_t utime_t; typedef uint32_t mtime_t;] *)
Definition UTIME_BITS : Z := 32.
Definition MTIME_BITS : Z := 32.

(** [#define F_CPU 16000000UL] *)
Definition F_CPU : Z := 16000000.

(** [#define FM_CPU (F_CPU / 1000000L)] *)
Definition FM_CPU : Z := udiv F_CPU 1000000.

(** [#define TIMER_PRESCALER 64] *)
Definition TIMER_PRESCALER : Z := 64.

(** [#define MSEC_TO_CLK(msec) (msec * F_CPU) / (1000UL * TIMER_PRESCALER)],
    the argument being a value of type [mtime_t]. *)
Definition MSEC_TO_CLK (msec : Z) : Z :=
  udiv (umul msec F_CPU) (umul 1000 TIMER_PRESCALER).

(** [#define USEC_TO_CLK(usec) (usec * FM_CPU) / TIMER_PRESCALER],
    the argument being a value of type [utime_t]. *)
Definition USEC_TO_CLK (usec : Z) : Z :=
  udiv (umul usec FM_CPU) TIMER_PRESCALER.

(** [#if TIMER_PRESCALER < 64] selects which of the two ratio constants
    exists; with the prescaler at 64 it is the [#else] branch. *)
Definition USEC_PER_CLK_CYCLES : option Z :=
  if TIMER_PRESCALER <? 64 then Some (udiv FM_CPU TIMER_PRESCALER) else None.

Definition CLK_CYCLES_PER_USEC : option Z :=
  if TIMER_PRESCALER <? 64 then None else Some (udiv TIMER_PRESCALER FM_CPU).

(** [#define MAX_USEC 0xFFFFUL * TIMER_PRESCALER / FM_CPU] *)
Definition MAX_USEC : Z := udiv (umul 0xFFFF TIMER_PRESCALER) FM_CPU.

(** ** Timer1 registers and the interrupt-control macros

    The four registers of Timer1 the header touches.  [TCNT1] and [OCR1A]
    are 16 bits wide, [TIFR1] and [TIMSK1] are 8.  A store to [TIFR1] follows
    the ATmega rule for flag registers: a flag is cleared by writing a one to
    its bit, a zero leaves it alone.  The other three hold what is written,
    cut to their width. *)
Module Timer1.

Record regs : Type := mkRegs {
  TCNT1 : Z;
  OCR1A : Z;
  TIFR1 : Z;
  TIMSK1 : Z
}.

Inductive ioreg : Type := R_TCNT1 | R_OCR1A | R_TIFR1 | R_TIMSK1.

Definition byte (v : Z) : Z := Z.land v 0xFF.
Definition word16 (v : Z) : Z := Z.land v 0xFFFF.

(** Bit 1 of [TIFR1] is OCF1A, the compare-A flag; bit 1 of [TIMSK1] is
    OCIE1A, its enable bit. *)
Definition OCF1A : Z := 2.

Definition store (r : ioreg) (v : Z) (s : regs) : regs :=
  match r with
  | R_TCNT1 => mkRegs (word16 v) (OCR1A s) (TIFR1 s) (TIMSK1 s)
  | R_OCR1A => mkRegs (TCNT1 s) (word16 v) (TIFR1 s) (TIMSK1 s)
  | R_TIFR1 =>
      mkRegs (TCNT1 s) (OCR1A s)
             (Z.land (byte (TIFR1 s)) (Z.lxor (byte v) 0xFF)) (TIMSK1 s)
  | R_TIMSK1 => mkRegs (TCNT1 s) (OCR1A s) (TIFR1 s) (byte v)
  end.

(** A macro body is a sequence of register assignments. *)
Inductive stmt : Type := Assign (r : ioreg) (v : Z).

Definition exec1 (c : stmt) (s : regs) : regs :=
  match c with Assign r v => store r v s end.

Fixpoint exec (p : list stmt) (s : regs) : regs :=
  match p with
  | [] => s
  | c :: p' => exec p' (exec1 c s)
  end.

(** The register state after each statement of the sequence, in order. *)
Fixpoint exec_trace (p : list stmt) (s : regs) : list regs :=
  match p with
  | [] => []
  | c :: p' => exec1 c s :: exec_trace p' (exec1 c s)
  end.

(** [#define TIMER_TEMP TCNT1] and [#define TIMER_COMP OCR1A] *)
Definition TIMER_TEMP (s : regs) : Z := TCNT1 s.
Definition TIMER_COMP : ioreg := R_OCR1A.

(** [#define SEI_TIMER() TIFR1 = 0xFF; TIMSK1 = 2] *)
Definition SEI_TIMER : list stmt :=
  [Assign R_TIFR1 0xFF; Assign R_TIMSK1 2].

(** [#define CLI_TIMER() TIFR1 = 0xFF; (TIMSK1 = 0)] *)
Definition CLI_TIMER : list stmt :=
  [Assign R_TIFR1 0xFF; Assign R_TIMSK1 0].

(** [#define IS_TIMER_SET (TIMSK1 & 2)] *)
Definition IS_TIMER_SET (s : regs) : Z := Z.land (TIMSK1 s) 2.

(** Timer1 raises an interrupt request when some flag of [TIFR1] is set
    whose enable bit, at the same position of [TIMSK1], is set too. *)
Definition irq_pending (s : regs) : bool :=
  negb (Z.land (byte (TIFR1 s)) (byte (TIMSK1 s)) =? 0).

End Timer1.
Import Timer1.

(** ** The system clock

    timer_arch.h declares [timer_sys_init_arch], [u_now] and [m_now]; their
    bodies and the compare-match handler live in a translation unit that is
    not part of these sources.  They are written here after the
    specification of the Monotonic Clock. *)
Module Clock.

(** Modelled from the spec: the Clock State of section 3, next to the
    counter registers; [u_now], [m_now] and the handler that use it are
    only declared in the header. *)
Record clock : Type := mkClock {
  accumulated_ms : Z;
  io : regs
}.

(** Modelled from the spec: the fixed millisecond-per-interrupt period of
    the absent handler, at the 1 ms resolution of the accumulator. *)
Definition MS_PER_INTERRUPT : Z := 1.

(** Modelled from the spec: [tick_period_us] of the absent clock source,
    the constant derived from core clock frequency and divider. *)
Definition tick_period_us : Z := udiv TIMER_PRESCALER FM_CPU.

(** Modelled from the spec: the absent compare-match handler.  It
    acknowledges the compare flag, adds the per-interrupt period to the
    accumulator (32-bit, wrapping) and moves the threshold a fixed tick
    count on from the previous threshold. *)
Definition compare_isr (c : clock) : clock :=
  mkClock (uadd (accumulated_ms c) MS_PER_INTERRUPT)
          (store TIMER_COMP
                 (OCR1A (io c) + MSEC_TO_CLK MS_PER_INTERRUPT)
                 (store R_TIFR1 OCF1A (io c))).

(** Modelled from the spec: a point where the absent handler may preempt
    foreground code; it runs when a request is pending and enabled. *)
Definition preempt (c : clock) : clock :=
  if irq_pending (io c) then compare_isr c else c.

(** Modelled from the spec: the critical-section guard used by the absent
    readers; it disables the timer interrupt and later puts back the
    enable mask it found. *)
Definition set_mask (mask : Z) (c : clock) : clock :=
  mkClock (accumulated_ms c) (store R_TIMSK1 mask (io c)).

(** Modelled from the spec: [m_now], declared in the header and defined
    elsewhere; it returns the accumulator as an [mtime_t], read with the
    interrupt disabled. *)
Definition m_now (c : clock) : Z * clock :=
  let saved := TIMSK1 (io c) in
  let c1 := set_mask 0 c in
  let ms := wrap MTIME_BITS (accumulated_ms c1) in
  (ms, set_mask saved c1).

(** Modelled from the spec: [u_now], declared in the header and defined
    elsewhere; accumulator and counter are read inside one critical
    section and combined in [utime_t] arithmetic. *)
Definition u_now (c : clock) : Z * clock :=
  let saved := TIMSK1 (io c) in
  let c1 := set_mask 0 c in
  let ms := accumulated_ms c1 in
  let c2 := preempt c1 in
  let ticks := TIMER_TEMP (io c2) in
  (uadd (umul ms 1000) (umul ticks tick_period_us), set_mask saved c2).

(** Modelled from the spec: [n] successive runs of the absent handler. *)
Fixpoint elapse (n : nat) (c : clock) : clock :=
  match n with
  | O => c
  | S n' => elapse n' (compare_isr c)
  end.

Definition MS_PER_DAY : Z := 24 * 60 * 60 * 1000.

End Clock.

(** ** The macros as the preprocessor sees them

    The definitions above read each macro as a function on values.  The
    header itself only gives token sequences, in which an argument is
    pasted as written and most bodies carry no outer parentheses.  This
    part keeps the macros as token sequences, expands them the way the
    preprocessor does, parses the result with C's precedences and evaluates
    it with avr-gcc's integer types, so that a macro can be studied inside
    the expression that uses it. *)
Module CExpr.
Import String.
Local Open Scope string_scope.
Local Open Scope Z_scope.

(** The integer types that occur: [uint8_t] (an I/O register), [int]
    (16 bits), [long] and [unsigned long] (32 bits). *)
Inductive ctype : Type := UInt8 | Int16 | Long32 | ULong32.

Inductive binop : Type := OMul | ODiv | OMod | OAdd | OSub | OAnd.

(** A constant carries the type its suffix gives it. *)
Inductive token : Type :=
| TNum (v : Z) (ty : ctype)
| TId (x : string)
| TOp (o : binop)
| TLParen
| TRParen.

Inductive expr : Type :=
| ENum (v : Z) (ty : ctype)
| EVar (x : string)
| EBin (o : binop) (a b : expr).

(** *** The header's macro definitions, token by token *)

(** [#define F_CPU 16000000UL] *)
Definition F_CPU_body : list token := [TNum 16000000 ULong32].

(** [#define FM_CPU (F_CPU / 1000000L)] *)
Definition FM_CPU_body : list token :=
  [TLParen; TId "F_CPU"; TOp ODiv; TNum 1000000 Long32; TRParen].

(** [#define TIMER_PRESCALER 64] *)
Definition TIMER_PRESCALER_body : list token := [TNum 64 Int16].

(** [#define USEC_PER_CLK_CYCLES (FM_CPU / TIMER_PRESCALER)] *)
Definition USEC_PER_CLK_CYCLES_body : list token :=
  [TLParen; TId "FM_CPU"; TOp ODiv; TId "TIMER_PRESCALER"; TRParen].

(** [#define CLK_CYCLES_PER_USEC (TIMER_PRESCALER / FM_CPU)] *)
Definition CLK_CYCLES_PER_USEC_body : list token :=
  [TLParen; TId "TIMER_PRESCALER"; TOp ODiv; TId "FM_CPU"; TRParen].

(** [#define MAX_USEC 0xFFFFUL * TIMER_PRESCALER / FM_CPU] *)
Definition MAX_USEC_body : list token :=
  [TNum 0xFFFF ULong32; TOp OMul; TId "TIMER_PRESCALER"; TOp ODiv;
   TId "FM_CPU"].

(** [#define IS_TIMER_SET (TIMSK1 & 2)] *)
Definition IS_TIMER_SET_body : list token :=
  [TLParen; TId "TIMSK1"; TOp OAnd; TNum 2 Int16; TRParen].

(** The object-like macros in force; [#if TIMER_PRESCALER < 64] decides
    which of the two ratio constants is defined. *)
Definition object_macros : list (string * list token) :=
  [("F_CPU", F_CPU_body); ("FM_CPU", FM_CPU_body);
   ("TIMER_PRESCALER", TIMER_PRESCALER_body);
   ("TIMER_TEMP", [TId "TCNT1"]); ("TIMER_COMP", [TId "OCR1A"])]
  ++ (if TIMER_PRESCALER <? 64
      then [("USEC_PER_CLK_CYCLES", USEC_PER_CLK_CYCLES_body)]
      else [("CLK_CYCLES_PER_USEC", CLK_CYCLES_PER_USEC_body)])
  ++ [("MAX_USEC", MAX_USEC_body); ("IS_TIMER_SET", IS_TIMER_SET_body)].

Record fmacro : Type := mkFmacro {
  fm_param : string;
  fm_body : list token
}.

(** [#define MSEC_TO_CLK(msec) (msec * F_CPU) / (1000UL * TIMER_PRESCALER)] *)
Definition MSEC_TO_CLK_macro : fmacro :=
  mkFmacro "msec"
    [TLParen; TId "msec"; TOp OMul; TId "F_CPU"; TRParen; TOp ODiv;
     TLParen; TNum 1000 ULong32; TOp OMul; TId "TIMER_PRESCALER"; TRParen].

(** [#define USEC_TO_CLK(usec) (usec * FM_CPU) / TIMER_PRESCALER] *)
Definition USEC_TO_CLK_macro : fmacro :=
  mkFmacro "usec"
    [TLParen; TId "usec"; TOp OMul; TId "FM_CPU"; TRParen; TOp ODiv;
     TId "TIMER_PRESCALER"].

(** *** Expansion *)

Fixpoint lookup_macro (x : string) (ms : list (string * list token))
  : option (list token) :=
  match ms with
  | [] => None
  | (y, body) :: ms' => if String.eqb x y then Some body else lookup_macro x ms'
  end.

(** An invocation pastes the argument's tokens where the parameter stands. *)
Definition invoke (m : fmacro) (arg : list token) : list token :=
  flat_map (fun t =>
              match t with
              | TId x => if String.eqb x (fm_param m) then arg else [t]
              | _ => [t]
              end) (fm_body m).

(** Object-like macros are replaced by their bodies, which are scanned
    again; [depth] bounds the nesting. *)
Fixpoint expand (depth : nat) (ts : list token) : list token :=
  match depth with
  | O => ts
  | S d =>
      flat_map (fun t =>
                  match t with
                  | TId x =>
                      match lookup_macro x object_macros with
                      | Some body => expand d body
                      | None => [t]
                      end
                  | _ => [t]
                  end) ts
  end.

Definition EXPAND_DEPTH : nat := 8.

(** *** Parsing

    C's precedences for the operators in use: multiplicative above
    additive above bitwise and; all three levels associate to the left. *)
Definition prec (o : binop) : nat :=
  match o with
  | OAnd => 0
  | OAdd | OSub => 1
  | OMul | ODiv | OMod => 2
  end.

Definition PRIMARY : nat := 3.

Fixpoint parse_level (fuel lvl : nat) (ts : list token) {struct fuel}
  : option (expr * list token) :=
  match fuel with
  | O => None
  | S f =>
      if Nat.leb PRIMARY lvl then
        match ts with
        | TNum v ty :: r => Some (ENum v ty, r)
        | TId x :: r => Some (EVar x, r)
        | TLParen :: r =>
            match parse_level f 0 r with
            | Some (e, TRParen :: r') => Some (e, r')
            | _ => None
            end
        | _ => None
        end
      else
        match parse_level f (S lvl) ts with
        | Some (e, r) => parse_tail f lvl e r
        | None => None
        end
  end
with parse_tail (fuel lvl : nat) (lhs : expr) (ts : list token) {struct fuel}
  : option (expr * list token) :=
  match fuel with
  | O => None
  | S f =>
      match ts with
      | TOp o :: r =>
          if Nat.eqb (prec o) lvl then
            match parse_level f (S lvl) r with
            | Some (rhs, r') => parse_tail f lvl (EBin o lhs rhs) r'
            | None => None
            end
          else Some (lhs, ts)
      | _ => Some (lhs, ts)
      end
  end.

Definition parse (ts : list token) : option expr :=
  match parse_level (8 * S (List.length ts)) 0 ts with
  | Some (e, []) => Some e
  | _ => None
  end.

(** *** Evaluation *)

Definition in_range (ty : ctype) (v : Z) : bool :=
  match ty with
  | UInt8 => (0 <=? v) && (v <? 2 ^ 8)
  | Int16 => (- 2 ^ 15 <=? v) && (v <? 2 ^ 15)
  | Long32 => (- 2 ^ 31 <=? v) && (v <? 2 ^ 31)
  | ULong32 => (0 <=? v) && (v <? 2 ^ 32)
  end.

(** Integer promotion: a [uint8_t] operand becomes an [int]. *)
Definition promote (ty : ctype) : ctype :=
  match ty with
  | UInt8 => Int16
  | _ => ty
  end.

Definition rank (ty : ctype) : nat :=
  match ty with
  | UInt8 => 0
  | Int16 => 1
  | Long32 => 2
  | ULong32 => 3
  end.

(** Usual arithmetic conversions: the operand of lower rank is converted
    to the type of the other, [unsigned long] winning over [long]. *)
Definition common (a b : ctype) : ctype :=
  if Nat.leb (rank (promote a)) (rank (promote b))
  then promote b else promote a.

(** Conversion of a value to the common type: to [unsigned long] modulo
    2^32; to a wider signed type unchanged. *)
Definition convert (ty : ctype) (v : Z) : Z :=
  match ty with
  | ULong32 => to_ulong v
  | _ => v
  end.

(** One operator at a given type.  Unsigned arithmetic wraps; signed
    arithmetic that leaves the range of its type, and any division by
    zero, has no defined result. *)
Definition apply_op (o : binop) (ty : ctype) (a b : Z) : option Z :=
  match ty with
  | ULong32 =>
      match o with
      | OMul => Some (umul a b)
      | OAdd => Some (uadd a b)
      | OSub => Some (to_ulong (a - b))
      | ODiv => if to_ulong b =? 0 then None else Some (udiv a b)
      | OMod => if to_ulong b =? 0 then None
                else Some (to_ulong a mod to_ulong b)
      | OAnd => Some (Z.land a b)
      end
  | _ =>
      let r :=
        match o with
        | OMul => Some (a * b)
        | OAdd => Some (a + b)
        | OSub => Some (a - b)
        | ODiv => if b =? 0 then None else Some (Z.quot a b)
        | OMod => if b =? 0 then None else Some (Z.rem a b)
        | OAnd => Some (Z.land a b)
        end in
      match r with
      | Some v => if in_range ty v then Some v else None
      | None => None
      end
  end.

Definition env : Type := string -> option (Z * ctype).

Definition no_vars : env := fun _ => None.

Definition bind (x : string) (v : Z) (ty : ctype) (e : env) : env :=
  fun y => if String.eqb x y then Some (v, ty) else e y.

Fixpoint eval (e : env) (x : expr) : option (Z * ctype) :=
  match x with
  | ENum v ty => if in_range ty v then Some (v, ty) else None
  | EVar y =>
      match e y with
      | Some (v, ty) => if in_range ty v then Some (v, ty) else None
      | None => None
      end
  | EBin o a b =>
      match eval e a, eval e b with
      | Some (va, ta), Some (vb, tb) =>
          let ty := common ta tb in
          match apply_op o ty (convert ty va) (convert ty vb) with
          | Some r => Some (r, ty)
          | None => None
          end
      | _, _ => None
      end
  end.

(** An expression of the program, from its tokens to its value. *)
Definition eval_tokens (e : env) (ts : list token) : option (Z * ctype) :=
  match parse (expand EXPAND_DEPTH ts) with
  | Some x => eval e x
  | None => None
  end.

End CExpr.

(** * Properties of the build-time arithmetic *)

Lemma pow2_32 : 2 ^ 32 = 4294967296.
Proof. reflexivity. Qed.

Lemma to_ulong_small (z : Z) : 0 <= z < 2 ^ 32 -> to_ulong z = z.
Proof. intros H. unfold to_ulong, wrap, ULONG_BITS. now apply Z.mod_small. Qed.

Lemma to_ulong_range (z : Z) : 0 <= to_ulong z < 2 ^ 32.
Proof. unfold to_ulong, wrap, ULONG_BITS. apply Z.mod_pos_bound. reflexivity. Qed.

Lemma FM_CPU_val : FM_CPU = 16.
Proof. reflexivity. Qed.

Lemma MAX_USEC_val : MAX_USEC = 262140.
Proof. reflexivity. Qed.

(** The two macros, with the wrap-around of the product left explicit. *)
Lemma USEC_TO_CLK_unfold (usec : Z) :
  USEC_TO_CLK usec = ((usec * 16) mod 2 ^ 32) / 64.
Proof.
  unfold USEC_TO_CLK, udiv, umul. rewrite FM_CPU_val.
  rewrite (to_ulong_small (to_ulong _)) by apply to_ulong_range.
  reflexivity.
Qed.

Lemma MSEC_TO_CLK_unfold (msec : Z) :
  MSEC_TO_CLK msec = ((msec * 16000000) mod 2 ^ 32) / 64000.
Proof.
  unfold MSEC_TO_CLK, udiv, umul.
  rewrite (to_ulong_small (to_ulong (msec * F_CPU))) by apply to_ulong_range.
  reflexivity.
Qed.

Lemma USEC_TO_CLK_small (usec : Z) :
  0 <= usec -> usec * FM_CPU < 2 ^ 32 -> USEC_TO_CLK usec = usec / 4.
Proof.
  rewrite FM_CPU_val, USEC_TO_CLK_unfold. intros H0 H1.
  rewrite Z.mod_small by lia.
  replace 64 with (16 * 4) by reflexivity.
  rewrite (Z.mul_comm usec 16).
  rewrite Z.div_mul_cancel_l; lia.
Qed.

Lemma MSEC_TO_CLK_small (msec : Z) :
  0 <= msec <= 268 -> MSEC_TO_CLK msec = 250 * msec.
Proof.
  intros H. rewrite MSEC_TO_CLK_unfold, pow2_32.
  rewrite Z.mod_small by lia.
  replace (msec * 16000000) with (250 * msec * 64000) by lia.
  apply Z.div_mul. discriminate.
Qed.

(** C3: with F_CPU = 16000000 and TIMER_PRESCALER = 64 a counter increment
    lasts 4 microseconds and MAX_USEC is exactly 262140 = 65535 * 4; the
    product 0xFFFF * 64 stays below 2^32, so nothing wraps on the way. *)
Theorem MAX_USEC_default_config :
  F_CPU = 16000000 /\ TIMER_PRESCALER = 64 /\
  USEC_PER_CLK_CYCLES = None /\ CLK_CYCLES_PER_USEC = Some 4 /\
  MAX_USEC = 262140 /\ MAX_USEC = 65535 * 4 /\
  0xFFFF * TIMER_PRESCALER < 2 ^ 32 /\
  umul 0xFFFF TIMER_PRESCALER = 0xFFFF * 64 /\
  MAX_USEC = 0xFFFF * 64 / 16.
Proof. repeat split. Qed.

(** C4: USEC_TO_CLK truncates.  While usec * FM_CPU fits in 32 bits the
    result is floor(usec * 16 / 64) = floor(usec / 4); a value that is not a
    multiple of 4 loses its remainder, and two values with the same
    quotient by 4 give the same tick count. *)
Theorem USEC_TO_CLK_truncates (usec : Z) :
  0 <= usec -> usec * FM_CPU < 2 ^ 32 ->
  USEC_TO_CLK usec = usec * 16 / 64 /\
  USEC_TO_CLK usec = usec / 4 /\
  (usec mod 4 <> 0 -> USEC_TO_CLK usec * 4 < usec) /\
  (forall usec', 0 <= usec' -> usec' * FM_CPU < 2 ^ 32 ->
     usec / 4 = usec' / 4 -> USEC_TO_CLK usec = USEC_TO_CLK usec').
Proof.
  intros H0 H1. pose proof (USEC_TO_CLK_small usec H0 H1) as E.
  repeat split.
  - rewrite USEC_TO_CLK_unfold, Z.mod_small; [reflexivity|].
    rewrite FM_CPU_val in H1. lia.
  - exact E.
  - intros Hr. rewrite E.
    pose proof (Z.div_mod usec 4 ltac:(discriminate)).
    pose proof (Z.mod_pos_bound usec 4 ltac:(reflexivity)). lia.
  - intros usec' H0' H1' Hq.
    rewrite E, (USEC_TO_CLK_small usec' H0' H1'). exact Hq.
Qed.

Lemma USEC_TO_CLK_truncates_witness :
  USEC_TO_CLK 7 = 1 /\ USEC_TO_CLK 7 * 4 < 7 /\ USEC_TO_CLK 7 = USEC_TO_CLK 5.
Proof.
  destruct (USEC_TO_CLK_truncates 7) as (_ & E & Hlt & Hsame);
    [lia | vm_compute; reflexivity |].
  split; [exact E | split].
  - apply Hlt. vm_compute. discriminate.
  - apply Hsame; [lia | vm_compute; reflexivity | reflexivity].
Defined.

(** C8: on whole milliseconds the two conversions agree.  While
    msec * F_CPU fits in 32 bits (that is, msec <= 268),
    MSEC_TO_CLK(msec) = USEC_TO_CLK(1000 * msec) = 250 * msec; one
    millisecond is 250 counter increments. *)
Theorem MSEC_USEC_agree (msec : Z) :
  0 <= msec -> msec * F_CPU < 2 ^ 32 ->
  msec <= 268 /\
  MSEC_TO_CLK msec = USEC_TO_CLK (umul 1000 msec) /\
  MSEC_TO_CLK msec = 250 * msec /\
  MSEC_TO_CLK 1 = 250.
Proof.
  intros H0 H1. unfold F_CPU in H1. rewrite pow2_32 in H1.
  assert (Hle : msec <= 268) by lia.
  assert (Hm : MSEC_TO_CLK msec = 250 * msec)
    by (apply MSEC_TO_CLK_small; lia).
  repeat split; try assumption.
  rewrite Hm. unfold umul. rewrite to_ulong_small by (rewrite pow2_32; lia).
  rewrite USEC_TO_CLK_small by (rewrite ?FM_CPU_val, ?pow2_32; lia).
  replace (1000 * msec) with (250 * msec * 4) by lia.
  symmetry. apply Z.div_mul. discriminate.
Qed.

Lemma MSEC_USEC_agree_witness :
  MSEC_TO_CLK 268 = USEC_TO_CLK (umul 1000 268) /\ MSEC_TO_CLK 268 = 250 * 268.
Proof.
  destruct (MSEC_USEC_agree 268) as (_ & E1 & E2 & _);
    [lia | vm_compute; reflexivity |].
  split; [exact E1 | exact E2].
Defined.

(** C10: MSEC_TO_CLK multiplies before it divides, in 32-bit unsigned
    arithmetic: the product msec * 16000000 wraps modulo 2^32.  The result
    is 250 * msec for every msec <= 268, and at msec = 269 the wrapped
    product gives 141 instead of 67250. *)
Theorem MSEC_TO_CLK_wraps :
  (forall msec, MSEC_TO_CLK msec = ((msec * 16000000) mod 2 ^ 32) / 64000) /\
  (forall msec, 0 <= msec <= 268 -> MSEC_TO_CLK msec = 250 * msec) /\
  268 * F_CPU < 2 ^ 32 <= 269 * F_CPU /\
  MSEC_TO_CLK 269 = 141 /\
  MSEC_TO_CLK 269 <> 250 * 269.
Proof.
  split; [exact MSEC_TO_CLK_unfold|].
  split; [exact MSEC_TO_CLK_small|].
  repeat split; try discriminate.
Qed.

Lemma MSEC_TO_CLK_wraps_witness : MSEC_TO_CLK 100 = 250 * 100.
Proof.
  destruct MSEC_TO_CLK_wraps as (_ & H & _).
  apply (H 100). lia.
Defined.

(** * Properties of the interrupt-control macros *)

Lemma exec_SEI_TIMER (s : regs) :
  exec SEI_TIMER s = mkRegs (TCNT1 s) (OCR1A s) 0 2.
Proof.
  unfold SEI_TIMER. cbn [exec exec1 store TCNT1 OCR1A TIFR1 TIMSK1].
  change (Z.lxor (byte 255) 255) with 0. rewrite Z.land_0_r. reflexivity.
Qed.

Lemma exec_CLI_TIMER (s : regs) :
  exec CLI_TIMER s = mkRegs (TCNT1 s) (OCR1A s) 0 0.
Proof.
  unfold CLI_TIMER. cbn [exec exec1 store TCNT1 OCR1A TIFR1 TIMSK1].
  change (Z.lxor (byte 255) 255) with 0. rewrite Z.land_0_r. reflexivity.
Qed.

Lemma store_TIFR1_all (s : regs) : TIFR1 (store R_TIFR1 0xFF s) = 0.
Proof.
  cbn [store TIFR1]. change (Z.lxor (byte 255) 255) with 0.
  apply Z.land_0_r.
Qed.

Lemma no_flag_no_irq (s : regs) : TIFR1 s = 0 -> irq_pending s = false.
Proof. unfold irq_pending. intros ->. reflexivity. Qed.

(** C5: CLI_TIMER disables and acknowledges.  From every register state it
    leaves TIMSK1 = 0 and every flag of TIFR1 cleared, so whatever mask a
    later enable writes, no interrupt request is pending at that moment. *)
Theorem CLI_TIMER_acknowledges (s : regs) :
  TIMSK1 (exec CLI_TIMER s) = 0 /\
  TIFR1 (exec CLI_TIMER s) = 0 /\
  IS_TIMER_SET (exec CLI_TIMER s) = 0 /\
  irq_pending (exec CLI_TIMER s) = false /\
  (forall mask, irq_pending (store R_TIMSK1 mask (exec CLI_TIMER s)) = false).
Proof.
  rewrite exec_CLI_TIMER. do 4 (split; [reflexivity|]).
  intros mask. apply no_flag_no_irq. reflexivity.
Qed.

(** C7: SEI_TIMER and CLI_TIMER are idempotent: run twice in a row, each
    leaves the registers as one run does. *)
Theorem SEI_CLI_idempotent (s : regs) :
  exec SEI_TIMER (exec SEI_TIMER s) = exec SEI_TIMER s /\
  exec CLI_TIMER (exec CLI_TIMER s) = exec CLI_TIMER s /\
  exec (SEI_TIMER ++ SEI_TIMER) s = exec SEI_TIMER s /\
  exec (CLI_TIMER ++ CLI_TIMER) s = exec CLI_TIMER s.
Proof.
  assert (Hs : exec SEI_TIMER (exec SEI_TIMER s) = exec SEI_TIMER s)
    by (now rewrite !exec_SEI_TIMER).
  assert (Hc : exec CLI_TIMER (exec CLI_TIMER s) = exec CLI_TIMER s)
    by (now rewrite !exec_CLI_TIMER).
  split; [exact Hs|]. split; [exact Hc|]. split; [exact Hs | exact Hc].
Qed.

(** C9: SEI_TIMER writes TIFR1 = 0xFF first and the enable mask second.
    Whatever flags were latched before, they are gone once the first
    statement has run; no interrupt request is pending after either
    statement, and the macro ends with TIFR1 = 0 and TIMSK1 = 2. *)
Theorem SEI_TIMER_discards_latched (s : regs) :
  SEI_TIMER = [Assign R_TIFR1 0xFF; Assign R_TIMSK1 2] /\
  exec_trace SEI_TIMER s =
    [store R_TIFR1 0xFF s; store R_TIMSK1 2 (store R_TIFR1 0xFF s)] /\
  TIFR1 (store R_TIFR1 0xFF s) = 0 /\
  TIMSK1 (store R_TIFR1 0xFF s) = TIMSK1 s /\
  Forall (fun s' => irq_pending s' = false) (exec_trace SEI_TIMER s) /\
  TIFR1 (exec SEI_TIMER s) = 0 /\
  TIMSK1 (exec SEI_TIMER s) = 2 /\
  IS_TIMER_SET (exec SEI_TIMER s) = 2 /\
  irq_pending (exec SEI_TIMER s) = false.
Proof.
  split; [reflexivity|]. split; [reflexivity|].
  split; [apply store_TIFR1_all|]. split; [reflexivity|].
  split.
  - cbn [exec_trace SEI_TIMER exec1].
    repeat constructor; apply no_flag_no_irq.
    + apply store_TIFR1_all.
    + cbn [store TIFR1]. change (Z.lxor (byte 255) 255) with 0.
      apply Z.land_0_r.
  - rewrite exec_SEI_TIMER. repeat split.
Qed.

(** * Properties of the system clock *)

Import Clock.

Lemma tick_period_us_val : tick_period_us = 4.
Proof. reflexivity. Qed.

(** Inside the critical section the handler cannot run. *)
Lemma preempt_masked (c : clock) : preempt (set_mask 0 c) = set_mask 0 c.
Proof.
  unfold preempt, set_mask, irq_pending.
  cbn [io store TIMSK1 TIFR1]. change (byte 0) with 0.
  rewrite Z.land_0_r. reflexivity.
Qed.

Lemma m_now_fst (c : clock) : fst (m_now c) = accumulated_ms c mod 2 ^ 32.
Proof. reflexivity. Qed.

Lemma compare_isr_ms (c : clock) :
  accumulated_ms (compare_isr c) = (accumulated_ms c + 1) mod 2 ^ 32.
Proof. reflexivity. Qed.

Lemma elapse_ms (n : nat) : forall c : clock,
  accumulated_ms (elapse n c) mod 2 ^ 32
  = (accumulated_ms c + Z.of_nat n) mod 2 ^ 32.
Proof.
  induction n as [|n IH]; intros c.
  - cbn [elapse]. now rewrite Z.add_0_r.
  - cbn [elapse]. rewrite IH, compare_isr_ms.
    rewrite Z.add_mod_idemp_l by discriminate.
    f_equal. lia.
Qed.

Lemma m_now_elapse (n : nat) (c : clock) :
  fst (m_now (elapse n c)) = (fst (m_now c) + Z.of_nat n) mod 2 ^ 32.
Proof.
  rewrite !m_now_fst, elapse_ms.
  now rewrite Z.add_mod_idemp_l by discriminate.
Qed.

(** C1: u_now returns accumulated_ms * 1000 + count * tick_period_us in
    32-bit modular arithmetic, count and accumulator being read inside one
    critical section in which the handler cannot run; with the default
    tick period of 4 us this is m_now() * 1000 + TCNT1 * 4 mod 2^32.  The
    reader leaves the accumulator and the enable mask as it found them. *)
Theorem u_now_value (c : clock) :
  fst (u_now c)
  = (accumulated_ms c * 1000 + TIMER_TEMP (io c) * tick_period_us) mod 2 ^ 32 /\
  tick_period_us = 4 /\
  CLK_CYCLES_PER_USEC = Some tick_period_us /\
  fst (u_now c) = (fst (m_now c) * 1000 + TCNT1 (io c) * 4) mod 2 ^ 32 /\
  preempt (set_mask 0 c) = set_mask 0 c /\
  accumulated_ms (snd (u_now c)) = accumulated_ms c /\
  TIMSK1 (io (snd (u_now c))) = byte (TIMSK1 (io c)).
Proof.
  assert (E : fst (u_now c)
              = (accumulated_ms c * 1000 + TCNT1 (io c) * 4) mod 2 ^ 32).
  { unfold u_now. cbv zeta. rewrite preempt_masked.
    cbn [fst set_mask accumulated_ms io TIMER_TEMP store TCNT1].
    rewrite tick_period_us_val.
    unfold uadd, umul, to_ulong, wrap, ULONG_BITS.
    now rewrite <- Z.add_mod by discriminate. }
  split; [rewrite tick_period_us_val; exact E|].
  split; [reflexivity|]. split; [reflexivity|].
  split.
  { rewrite E, m_now_fst.
    rewrite (Z.add_mod (accumulated_ms c mod 2 ^ 32 * 1000)) by discriminate.
    rewrite Z.mul_mod_idemp_l by discriminate.
    now rewrite <- Z.add_mod by discriminate. }
  split; [apply preempt_masked|].
  unfold u_now. cbv zeta. rewrite preempt_masked. split; reflexivity.
Qed.

(** C6: the accumulator read by m_now is a 32-bit value that each
    interrupt advances by one millisecond modulo 2^32.  Two reads with no
    wraparound between them are ordered; the value comes back to where it
    was after exactly 2^32 ms and not earlier, which is between 49.7 and
    49.8 days. *)
Theorem m_now_monotone_until_wrap (c : clock) :
  0 <= fst (m_now c) < 2 ^ MTIME_BITS /\
  fst (m_now (compare_isr c)) = (fst (m_now c) + 1) mod 2 ^ MTIME_BITS /\
  (forall i j : nat,
     (i <= j)%nat ->
     fst (m_now c) + Z.of_nat j < 2 ^ MTIME_BITS ->
     fst (m_now (elapse i c)) <= fst (m_now (elapse j c))) /\
  (fst (m_now c) = 2 ^ MTIME_BITS - 1 -> fst (m_now (compare_isr c)) = 0) /\
  (forall n : nat,
     0 < Z.of_nat n < 2 ^ MTIME_BITS ->
     fst (m_now (elapse n c)) <> fst (m_now c)) /\
  (forall n : nat,
     Z.of_nat n = 2 ^ MTIME_BITS ->
     fst (m_now (elapse n c)) = fst (m_now c)) /\
  2 ^ MTIME_BITS = 4294967296 /\
  497 * MS_PER_DAY <= 10 * 2 ^ MTIME_BITS < 498 * MS_PER_DAY.
Proof.
  change (2 ^ MTIME_BITS) with (2 ^ 32).
  assert (R : 0 <= fst (m_now c) < 2 ^ 32).
  { rewrite m_now_fst. apply Z.mod_pos_bound. reflexivity. }
  split; [exact R|].
  split; [exact (m_now_elapse 1 c)|].
  split.
  { intros i j Hij Hj. rewrite !m_now_elapse.
    rewrite !Z.mod_small by lia. lia. }
  split.
  { intros E. change (compare_isr c) with (elapse 1 c).
    rewrite m_now_elapse, E. reflexivity. }
  split.
  { intros n Hn. rewrite m_now_elapse. rewrite pow2_32 in *.
    destruct (Z_lt_ge_dec (fst (m_now c) + Z.of_nat n) 4294967296) as [L|G].
    - rewrite Z.mod_small by lia. lia.
    - replace (fst (m_now c) + Z.of_nat n)
        with (fst (m_now c) + Z.of_nat n - 4294967296 + 1 * 4294967296)
        by lia.
      rewrite Z.mod_add by discriminate.
      rewrite Z.mod_small by lia. lia. }
  split.
  { intros n Hn. rewrite m_now_elapse, Hn.
    replace (fst (m_now c) + 2 ^ 32) with (fst (m_now c) + 1 * 2 ^ 32) by lia.
    rewrite Z.mod_add by discriminate.
    now apply Z.mod_small. }
  split; [reflexivity|]. split; [discriminate | reflexivity].
Qed.

Lemma m_now_monotone_until_wrap_witness :
  fst (m_now (elapse 2 (mkClock 7 (mkRegs 0 0 0 0))))
  <= fst (m_now (elapse 5 (mkClock 7 (mkRegs 0 0 0 0)))).
Proof.
  destruct (m_now_monotone_until_wrap (mkClock 7 (mkRegs 0 0 0 0)))
    as (_ & _ & H & _).
  apply (H 2%nat 5%nat); [lia | vm_compute; reflexivity].
Defined.

(** * Further properties of the conversion macros *)

Lemma pow2_26 : 2 ^ 26 = 67108864.
Proof. reflexivity. Qed.

Lemma pow2_28 : 2 ^ 28 = 268435456.
Proof. reflexivity. Qed.

Lemma word16_mod (v : Z) : word16 v = v mod 2 ^ 16.
Proof. unfold word16. change 0xFFFF with (Z.ones 16). now apply Z.land_ones. Qed.

(** USEC_TO_CLK on every argument, in or out of range: the quotient by 4,
    kept to 26 bits. *)
Lemma USEC_TO_CLK_any (usec : Z) : USEC_TO_CLK usec = (usec / 4) mod 2 ^ 26.
Proof.
  rewrite USEC_TO_CLK_unfold.
  change (2 ^ 32) with (64 * 2 ^ 26).
  rewrite Z.rem_mul_r by (try discriminate; reflexivity).
  rewrite (Z.mul_comm 64), Z.div_add by discriminate.
  rewrite (Z.div_small (_ mod 64))
    by (apply Z.mod_pos_bound; reflexivity).
  rewrite Z.add_0_l. f_equal.
  rewrite (Z.mul_comm usec 16). change 64 with (16 * 4).
  apply Z.div_mul_cancel_l; discriminate.
Qed.

(** X1: The tick count is periodic in the delay: the 32-bit product
    usec * FM_CPU wraps every 2^28 microseconds, so delays that differ by
    2^28 us (about 268 s) convert to the same count, the count never reaches
    2^26, and two delays with the same quotient by 4 are never told apart,
    whatever their size. *)
Theorem USEC_TO_CLK_period (usec : Z) :
  USEC_TO_CLK usec = (usec / 4) mod 2 ^ 26 /\
  USEC_TO_CLK (usec + 2 ^ 28) = USEC_TO_CLK usec /\
  0 <= USEC_TO_CLK usec < 2 ^ 26 /\
  (forall usec', usec / 4 = usec' / 4 -> USEC_TO_CLK usec = USEC_TO_CLK usec').
Proof.
  split; [apply USEC_TO_CLK_any|]. split.
  { rewrite !USEC_TO_CLK_any.
    change (2 ^ 28) with (2 ^ 26 * 4).
    rewrite Z.div_add by discriminate.
    replace (usec / 4 + 2 ^ 26) with (usec / 4 + 1 * 2 ^ 26) by lia.
    apply Z.mod_add. discriminate. }
  split.
  { rewrite USEC_TO_CLK_any. apply Z.mod_pos_bound. reflexivity. }
  intros usec' E. now rewrite !USEC_TO_CLK_any, E.
Qed.

Lemma USEC_TO_CLK_period_witness : USEC_TO_CLK 4294967295 = USEC_TO_CLK 4294967292.
Proof.
  destruct (USEC_TO_CLK_period 4294967295) as (_ & _ & _ & H).
  apply H. reflexivity.
Defined.

(** X2: Ticks to microseconds and back: with CLK_CYCLES_PER_USEC microseconds
    per tick, every count below 2^26 survives the round trip, and a delay
    below 2^28 us comes back short by less than one tick period. *)
Theorem USEC_TO_CLK_roundtrip (us : Z) :
  CLK_CYCLES_PER_USEC = Some us ->
  (forall ticks, 0 <= ticks < 2 ^ 26 -> USEC_TO_CLK (ticks * us) = ticks) /\
  (forall usec, 0 <= usec < 2 ^ 28 ->
     0 <= usec - USEC_TO_CLK usec * us < us).
Proof.
  intros E. assert (us = 4) as -> by (vm_compute in E; congruence).
  split.
  - intros ticks H. rewrite USEC_TO_CLK_any, Z.div_mul by discriminate.
    now apply Z.mod_small.
  - intros usec H. rewrite USEC_TO_CLK_any, pow2_26. rewrite pow2_28 in H.
    pose proof (Z.div_mod usec 4 ltac:(discriminate)).
    pose proof (Z.mod_pos_bound usec 4 ltac:(reflexivity)).
    rewrite Z.mod_small by lia. lia.
Qed.

Lemma USEC_TO_CLK_roundtrip_witness :
  USEC_TO_CLK (65535 * 4) = 65535 /\ 0 <= 1003 - USEC_TO_CLK 1003 * 4 < 4.
Proof.
  destruct (USEC_TO_CLK_roundtrip 4 eq_refl) as (Hr & Hb).
  split; [apply Hr | apply Hb]; vm_compute; split; (reflexivity || discriminate).
Defined.

(** X3: USEC_TO_CLK keeps the order of delays below 2^28 us and loses it at
    the wrap: 2^28 - 1 gives the largest count, 2^28 gives 0. *)
Theorem USEC_TO_CLK_monotone (a b : Z) :
  0 <= a <= b -> b < 2 ^ 28 ->
  USEC_TO_CLK a <= USEC_TO_CLK b /\
  USEC_TO_CLK b <= USEC_TO_CLK (2 ^ 28 - 1) /\
  USEC_TO_CLK (2 ^ 28) = 0.
Proof.
  intros Hab Hb. rewrite pow2_28 in Hb.
  split; [|split; [|reflexivity]].
  - rewrite !USEC_TO_CLK_any, pow2_26.
    pose proof (Z.div_le_mono a b 4 ltac:(reflexivity) ltac:(lia)).
    pose proof (Z.div_pos a 4 ltac:(lia) ltac:(reflexivity)).
    pose proof (Z.div_lt_upper_bound b 4 67108864 ltac:(reflexivity) ltac:(lia)).
    rewrite !Z.mod_small by lia. lia.
  - rewrite (USEC_TO_CLK_any b), pow2_26.
    change (USEC_TO_CLK (2 ^ 28 - 1)) with 67108863.
    pose proof (Z.mod_pos_bound (b / 4) 67108864 ltac:(reflexivity)). lia.
Qed.

Lemma USEC_TO_CLK_monotone_witness : USEC_TO_CLK 1000 <= USEC_TO_CLK 262140.
Proof.
  destruct (USEC_TO_CLK_monotone 1000 262140) as (H & _);
    [lia | reflexivity | exact H].
Defined.

(** X4: What the 16-bit compare register keeps of a converted delay: for a
    delay below 2^28 us the count written to OCR1A is read back unchanged
    exactly when the delay is below 262144 us, so in particular for every
    delay up to MAX_USEC, whose own count is 0xFFFF. *)
Theorem USEC_TO_CLK_fits_compare (usec : Z) (s : regs) :
  0 <= usec < 2 ^ 28 ->
  (OCR1A (store TIMER_COMP (USEC_TO_CLK usec) s) = USEC_TO_CLK usec
   <-> usec < 262144) /\
  (usec <= MAX_USEC -> USEC_TO_CLK usec <= 0xFFFF) /\
  USEC_TO_CLK MAX_USEC = 0xFFFF /\
  OCR1A (store TIMER_COMP (USEC_TO_CLK usec) s) = (usec / 4) mod 2 ^ 16.
Proof.
  intros H. rewrite pow2_28 in H.
  assert (E : USEC_TO_CLK usec = usec / 4).
  { rewrite USEC_TO_CLK_any, pow2_26. apply Z.mod_small.
    pose proof (Z.div_pos usec 4 ltac:(lia) ltac:(reflexivity)).
    pose proof (Z.div_lt_upper_bound usec 4 67108864 ltac:(reflexivity)
                  ltac:(lia)). lia. }
  cbn [TIMER_COMP store OCR1A]. rewrite word16_mod, E.
  pose proof (Z.div_mod usec 4 ltac:(discriminate)) as Hd.
  pose proof (Z.mod_pos_bound usec 4 ltac:(reflexivity)) as Hm.
  change (2 ^ 16) with 65536.
  split; [|split; [|split; reflexivity]].
  - split.
    + intros Hs. apply Z.mod_small_iff in Hs; [|discriminate]. lia.
    + intros Hlt. apply Z.mod_small. lia.
  - rewrite MAX_USEC_val. lia.
Qed.

Lemma USEC_TO_CLK_fits_compare_witness :
  OCR1A (store TIMER_COMP (USEC_TO_CLK 237860) (mkRegs 0 0 0 0))
  = USEC_TO_CLK 237860.
Proof.
  destruct (USEC_TO_CLK_fits_compare 237860 (mkRegs 0 0 0 0)) as (H & _);
    [split; [discriminate | reflexivity]|].
  apply H. reflexivity.
Defined.

(** X5: MSEC_TO_CLK never returns more than 67108, whatever its argument; up
    to 268 ms it grows by 250 ticks per millisecond, and its count fits the
    16-bit compare register exactly up to 262 ms. *)
Theorem MSEC_TO_CLK_range (msec : Z) :
  0 <= MSEC_TO_CLK msec <= 67108 /\
  (0 <= msec < 268 -> MSEC_TO_CLK (msec + 1) = MSEC_TO_CLK msec + 250) /\
  (0 <= msec <= 268 -> (MSEC_TO_CLK msec <= 0xFFFF <-> msec <= 262)) /\
  (forall s : regs,
     0 <= msec <= 262 ->
     OCR1A (store TIMER_COMP (MSEC_TO_CLK msec) s) = 250 * msec).
Proof.
  split.
  { rewrite MSEC_TO_CLK_unfold, pow2_32.
    pose proof (Z.mod_pos_bound (msec * 16000000) 4294967296
                  ltac:(reflexivity)) as B.
    split.
    - apply Z.div_pos; [lia | reflexivity].
    - apply Z.lt_succ_r. apply Z.div_lt_upper_bound; [reflexivity | lia]. }
  split.
  { intros H. rewrite !MSEC_TO_CLK_small by lia. lia. }
  split.
  { intros H. rewrite MSEC_TO_CLK_small by lia. lia. }
  intros s H. cbn [TIMER_COMP store OCR1A].
  rewrite word16_mod, MSEC_TO_CLK_small by lia.
  apply Z.mod_small. change (2 ^ 16) with 65536. lia.
Qed.

Lemma MSEC_TO_CLK_range_witness :
  MSEC_TO_CLK 263 = MSEC_TO_CLK 262 + 250 /\
  OCR1A (store TIMER_COMP (MSEC_TO_CLK 262) (mkRegs 0 0 0 0)) = 250 * 262.
Proof.
  destruct (MSEC_TO_CLK_range 262) as (_ & Hs & _ & Ho).
  split; [apply Hs | apply Ho]; lia.
Defined.

(** * Further properties of the interrupt-control macros *)

Lemma exec_app (p q : list stmt) : forall s, exec (p ++ q) s = exec q (exec p s).
Proof.
  induction p as [|c p IH]; intros s; [reflexivity|].
  cbn [app exec]. apply IH.
Qed.

Lemma exec_macro_last (m : list stmt) (s1 s2 : regs) :
  m = SEI_TIMER \/ m = CLI_TIMER ->
  TCNT1 s1 = TCNT1 s2 -> OCR1A s1 = OCR1A s2 ->
  exec m s1 = exec m s2.
Proof.
  intros [-> | ->] Ht Ho.
  - now rewrite !exec_SEI_TIMER, Ht, Ho.
  - now rewrite !exec_CLI_TIMER, Ht, Ho.
Qed.

Lemma exec_macros_keep (ms : list (list stmt)) : forall s,
  Forall (fun m => m = SEI_TIMER \/ m = CLI_TIMER) ms ->
  TCNT1 (exec (concat ms) s) = TCNT1 s /\
  OCR1A (exec (concat ms) s) = OCR1A s.
Proof.
  induction ms as [|m ms IH]; intros s H; [now split|].
  inversion H as [|? ? Hm Hms]; subst.
  cbn [concat]. rewrite exec_app.
  destruct (IH (exec m s) Hms) as (A & B). rewrite A, B.
  destruct Hm as [-> | ->];
    [rewrite exec_SEI_TIMER | rewrite exec_CLI_TIMER]; now split.
Qed.

(** X7: However many times SEI_TIMER and CLI_TIMER are run one after the
    other, the registers end as the last macro alone would leave them:
    the previous enable state is not kept anywhere, and the counter and the
    compare threshold are never written. *)
Theorem SEI_CLI_last_wins (ms : list (list stmt)) (m : list stmt) (s : regs) :
  Forall (fun m' => m' = SEI_TIMER \/ m' = CLI_TIMER) (ms ++ [m]) ->
  exec (concat (ms ++ [m])) s = exec m s /\
  TCNT1 (exec (concat (ms ++ [m])) s) = TCNT1 s /\
  OCR1A (exec (concat (ms ++ [m])) s) = OCR1A s.
Proof.
  intros H. pose proof (exec_macros_keep _ s H) as (Kt & Ko).
  split; [|now split].
  apply Forall_app in H. destruct H as (Hms & Hm).
  inversion Hm as [|? ? Hm' _]; subst.
  rewrite concat_app, exec_app. cbn [concat]. rewrite app_nil_r.
  destruct (exec_macros_keep ms s Hms) as (A & B).
  now apply exec_macro_last.
Qed.

Lemma SEI_CLI_last_wins_witness :
  exec (SEI_TIMER ++ CLI_TIMER ++ SEI_TIMER ++ CLI_TIMER) (mkRegs 5 9 0x27 0x21)
  = exec CLI_TIMER (mkRegs 5 9 0x27 0x21).
Proof.
  destruct (SEI_CLI_last_wins [SEI_TIMER; CLI_TIMER; SEI_TIMER] CLI_TIMER
              (mkRegs 5 9 0x27 0x21)) as (H & _).
  - cbn [app]. repeat (apply Forall_cons; [auto|]). apply Forall_nil.
  - rewrite <- H. reflexivity.
Defined.

(** X8: IS_TIMER_SET tests bit 1 of TIMSK1 and nothing else: its value is 0 or
    2, it is 2 exactly when OCIE1A is set, a store to TIMSK1 shows through
    it as the stored value's bit 1, and stores to the other three registers
    do not change it. *)
Theorem IS_TIMER_SET_bit (s : regs) :
  (IS_TIMER_SET s = 0 \/ IS_TIMER_SET s = 2) /\
  (IS_TIMER_SET s = 2 <-> Z.testbit (TIMSK1 s) 1 = true) /\
  (forall mask, IS_TIMER_SET (store R_TIMSK1 mask s) = Z.land mask 2) /\
  (forall r v, r <> R_TIMSK1 -> IS_TIMER_SET (store r v s) = IS_TIMER_SET s).
Proof.
  assert (T : forall n, 0 <= n -> Z.testbit 2 n = (1 =? n)).
  { intros n Hn. change 2 with (2 ^ 1). apply Z.pow2_bits_eqb. lia. }
  assert (B : forall x, Z.land x 2 = if Z.testbit x 1 then 2 else 0).
  { intros x. apply Z.bits_inj'. intros n Hn.
    rewrite Z.land_spec, T by exact Hn.
    destruct (Z.eqb_spec 1 n) as [<-|Hne].
    - rewrite andb_true_r. now destruct (Z.testbit x 1).
    - rewrite andb_false_r. destruct (Z.testbit x 1).
      + rewrite T by exact Hn. symmetry. now apply Z.eqb_neq.
      + symmetry. apply Z.bits_0. }
  unfold IS_TIMER_SET. split; [|split; [|split]].
  - rewrite B. destruct (Z.testbit (TIMSK1 s) 1); auto.
  - rewrite B. destruct (Z.testbit (TIMSK1 s) 1); split; congruence.
  - intros mask. cbn [store TIMSK1]. unfold byte.
    rewrite <- Z.land_assoc. reflexivity.
  - intros r v Hr. destruct r; try reflexivity. congruence.
Qed.

Lemma IS_TIMER_SET_bit_witness :
  IS_TIMER_SET (store R_OCR1A 100 (mkRegs 0 0 0x27 0x23))
  = IS_TIMER_SET (mkRegs 0 0 0x27 0x23) /\
  Z.testbit (TIMSK1 (mkRegs 0 0 0x27 0x23)) 1 = true.
Proof.
  destruct (IS_TIMER_SET_bit (mkRegs 0 0 0x27 0x23)) as (_ & Hb & _ & Hk).
  split; [apply Hk; discriminate | apply Hb; reflexivity].
Defined.

(** * The macros inside the expressions that use them *)

Lemma to_ulong_idem (z : Z) : to_ulong (to_ulong z) = to_ulong z.
Proof. apply to_ulong_small, to_ulong_range. Qed.

Lemma umul_to_ulong_l (a b : Z) : umul (to_ulong a) b = umul a b.
Proof.
  unfold umul, to_ulong, wrap. apply Z.mul_mod_idemp_l.
  discriminate.
Qed.

Lemma uadd_to_ulong_l (a b : Z) : uadd (to_ulong a) b = uadd a b.
Proof.
  unfold uadd, to_ulong, wrap. apply Z.add_mod_idemp_l.
  discriminate.
Qed.

Lemma udiv_to_ulong_l (a b : Z) : udiv (to_ulong a) b = udiv a b.
Proof. unfold udiv. now rewrite to_ulong_idem. Qed.

Lemma land_2_cases (x : Z) : Z.land x 2 = 0 \/ Z.land x 2 = 2.
Proof.
  assert (T : forall n, 0 <= n -> Z.testbit 2 n = (1 =? n)).
  { intros n Hn. change 2 with (2 ^ 1). apply Z.pow2_bits_eqb. lia. }
  destruct (Z.testbit x 1) eqn:E; [right | left];
    apply Z.bits_inj'; intros n Hn; rewrite Z.land_spec, T by exact Hn;
    destruct (Z.eqb_spec 1 n) as [<-|Hne];
    rewrite ?E, ?andb_false_r, ?Z.bits_0, ?T by exact Hn; try reflexivity.
Qed.

Lemma udiv_small (a b : Z) :
  0 <= a < 2 ^ 32 -> 0 <= b < 2 ^ 32 -> udiv a b = a / b.
Proof. intros Ha Hb. unfold udiv. now rewrite !to_ulong_small. Qed.

Lemma umul_small (a b : Z) : 0 <= a * b < 2 ^ 32 -> umul a b = a * b.
Proof. intros H. unfold umul. now apply to_ulong_small. Qed.

Lemma uadd_small (a b : Z) : 0 <= a + b < 2 ^ 32 -> uadd a b = a + b.
Proof. intros H. unfold uadd. now apply to_ulong_small. Qed.

Lemma to_ulong_umul (a b : Z) : to_ulong (umul a b) = umul a b.
Proof. apply to_ulong_idem. Qed.

Lemma to_ulong_uadd (a b : Z) : to_ulong (uadd a b) = uadd a b.
Proof. apply to_ulong_idem. Qed.

Section MacroText.
Import String CExpr.
Local Open Scope string_scope.
Local Open Scope Z_scope.

Lemma in_range_ulong (x : Z) : 0 <= x < 2 ^ 32 -> in_range ULong32 x = true.
Proof.
  intros H. unfold in_range. apply andb_true_intro.
  split; [apply Z.leb_le | apply Z.ltb_lt]; lia.
Qed.

Lemma in_range_int (x : Z) :
  - 32768 <= x < 32768 <-> in_range Int16 x = true.
Proof.
  unfold in_range. change (- 2 ^ 15) with (- 32768).
  change (2 ^ 15) with 32768.
  rewrite andb_true_iff, Z.leb_le, Z.ltb_lt. reflexivity.
Qed.

(** Tokens to syntax tree, by computation. *)
Ltac parse_tokens :=
  unfold eval_tokens;
  match goal with
  | |- context [parse ?ts] =>
      let p := eval vm_compute in (parse ts) in change (parse ts) with p
  end;
  cbv beta iota.

Ltac eval_step :=
  cbn [eval bind no_vars String.eqb Ascii.eqb Bool.eqb common promote rank
       Nat.leb convert apply_op].

Ltac is_pos p :=
  lazymatch p with
  | xH => idtac
  | xO ?q => is_pos q
  | xI ?q => is_pos q
  end.

Ltac is_num z :=
  lazymatch z with
  | Z0 => idtac
  | Zpos ?p => is_pos p
  | Zneg ?p => is_pos p
  end.

Ltac closed_bool c :=
  let b := eval vm_compute in c in
  match b with
  | true => change c with true
  | false => change c with false
  end.

(** Range and zero tests on numerals are decided by computation. *)
Ltac closed_tests :=
  repeat match goal with
    | |- context [in_range ?ty ?v] => is_num v; closed_bool (in_range ty v)
    | |- context [?a =? 0] => is_num a; closed_bool (a =? 0)
    end.

(** Conversions and quotients of numerals are computed. *)
Ltac closed_ulongs :=
  repeat match goal with
    | |- context [to_ulong ?v] =>
        is_num v;
        let r := eval vm_compute in (to_ulong v) in
        change (to_ulong v) with r
    | |- context [udiv ?a ?b] =>
        is_num a; is_num b;
        let r := eval vm_compute in (udiv a b) in
        change (udiv a b) with r
    | |- context [umul ?a ?b] =>
        is_num a; is_num b;
        let r := eval vm_compute in (umul a b) in
        change (umul a b) with r
    end.

Ltac run_eval := do 6 (eval_step; closed_tests; closed_ulongs).

(** X9: With a single variable as argument, of any of the integer types, each
    conversion macro expands, parses and evaluates to the value-level
    definition used above, at type unsigned long: the UL constants pull
    every operator of the body to 32-bit unsigned arithmetic. *)
Theorem conversion_macros_refine (ty : ctype) (x : Z) :
  in_range ty x = true ->
  eval_tokens (bind "t" x ty no_vars) (invoke USEC_TO_CLK_macro [TId "t"])
  = Some (USEC_TO_CLK x, ULong32) /\
  eval_tokens (bind "t" x ty no_vars) (invoke MSEC_TO_CLK_macro [TId "t"])
  = Some (MSEC_TO_CLK x, ULong32).
Proof.
  intros H. split; parse_tokens; eval_step; rewrite H;
    destruct ty; run_eval;
    rewrite udiv_to_ulong_l, umul_to_ulong_l; reflexivity.
Qed.

Lemma conversion_macros_refine_witness :
  eval_tokens (bind "t" 1003 ULong32 no_vars)
    (invoke USEC_TO_CLK_macro [TId "t"]) = Some (250, ULong32) /\
  eval_tokens (bind "t" (-1) Int16 no_vars)
    (invoke MSEC_TO_CLK_macro [TId "t"]) = Some (MSEC_TO_CLK (-1), ULong32).
Proof.
  split.
  - apply (conversion_macros_refine ULong32 1003). reflexivity.
  - apply (conversion_macros_refine Int16 (-1)). reflexivity.
Defined.

(** X10: The object-like macros evaluate to the constants used above, with the
    types C gives them: unsigned long wherever F_CPU or an UL constant
    enters, int for TIMER_PRESCALER and for IS_TIMER_SET, whose value is
    bit 1 of the register.  Of the two ratio constants only the one that
    [#if TIMER_PRESCALER < 64] selects has a value. *)
Theorem object_macros_refine (s : regs) :
  in_range UInt8 (TIMSK1 s) = true ->
  eval_tokens no_vars [TId "F_CPU"] = Some (F_CPU, ULong32) /\
  eval_tokens no_vars [TId "FM_CPU"] = Some (FM_CPU, ULong32) /\
  eval_tokens no_vars [TId "TIMER_PRESCALER"] = Some (TIMER_PRESCALER, Int16) /\
  eval_tokens no_vars [TId "MAX_USEC"] = Some (MAX_USEC, ULong32) /\
  eval_tokens no_vars [TId "CLK_CYCLES_PER_USEC"]
  = option_map (fun v => (v, ULong32)) CLK_CYCLES_PER_USEC /\
  eval_tokens no_vars [TId "USEC_PER_CLK_CYCLES"]
  = option_map (fun v => (v, ULong32)) USEC_PER_CLK_CYCLES /\
  eval_tokens (bind "TIMSK1" (TIMSK1 s) UInt8 no_vars) [TId "IS_TIMER_SET"]
  = Some (IS_TIMER_SET s, Int16).
Proof.
  intros H. do 6 (split; [vm_compute; reflexivity|]).
  parse_tokens. eval_step. rewrite H. run_eval.
  unfold IS_TIMER_SET.
  destruct (land_2_cases (TIMSK1 s)) as [E | E]; rewrite E; reflexivity.
Qed.

Lemma object_macros_refine_witness :
  eval_tokens (bind "TIMSK1" 0x23 UInt8 no_vars) [TId "IS_TIMER_SET"]
  = Some (2, Int16).
Proof.
  destruct (object_macros_refine (mkRegs 0 0 0 0x23))
    as (_ & _ & _ & _ & _ & _ & H); [reflexivity | exact H].
Defined.

(** X11: MAX_USEC has no outer parentheses.  As the right operand of [/] or [%]
    only its first constant divides: [d / MAX_USEC] is
    ((d / 0xFFFF) * 64) / 16 = 4 * (d / 0xFFFF) and [d % MAX_USEC] is
    4 * (d % 0xFFFF).  The quotient differs from d / 262140 for every d from
    0xFFFF on; written [d / (MAX_USEC)] it is d / 262140. *)
Theorem MAX_USEC_as_divisor (d : Z) :
  0 <= d < 2 ^ 32 ->
  eval_tokens (bind "d" d ULong32 no_vars) [TId "d"; TOp ODiv; TId "MAX_USEC"]
  = Some (4 * (d / 0xFFFF), ULong32) /\
  eval_tokens (bind "d" d ULong32 no_vars) [TId "d"; TOp OMod; TId "MAX_USEC"]
  = Some (4 * (d mod 0xFFFF), ULong32) /\
  eval_tokens (bind "d" d ULong32 no_vars)
    [TId "d"; TOp ODiv; TLParen; TId "MAX_USEC"; TRParen]
  = Some (d / MAX_USEC, ULong32) /\
  eval_tokens (bind "d" d ULong32 no_vars)
    [TId "d"; TOp OMod; TLParen; TId "MAX_USEC"; TRParen]
  = Some (d mod MAX_USEC, ULong32) /\
  (4 * (d / 0xFFFF) = d / MAX_USEC <-> d < 0xFFFF).
Proof.
  intros H. pose proof H as H'. rewrite pow2_32 in H'.
  pose proof (Z.div_pos d 65535 ltac:(lia) ltac:(reflexivity)) as Hq0.
  pose proof (Z.div_lt_upper_bound d 65535 65538 ltac:(reflexivity)
                ltac:(lia)) as Hq1.
  pose proof (Z.mod_pos_bound d 65535 ltac:(reflexivity)) as Hr.
  split; [|split; [|split; [|split]]].
  - parse_tokens. eval_step. rewrite (in_range_ulong d H). run_eval.
    rewrite udiv_to_ulong_l, umul_to_ulong_l, udiv_to_ulong_l.
    rewrite (udiv_small d) by (rewrite ?pow2_32; lia).
    rewrite umul_small by (rewrite pow2_32; lia).
    rewrite udiv_small by (rewrite pow2_32; lia).
    do 2 f_equal.
    replace (d / 65535 * 64) with (4 * (d / 65535) * 16) by lia.
    apply Z.div_mul. discriminate.
  - parse_tokens. eval_step. rewrite (in_range_ulong d H). run_eval.
    rewrite udiv_to_ulong_l, umul_to_ulong_l, !to_ulong_idem.
    rewrite (to_ulong_small d) by exact H.
    rewrite umul_small by (rewrite pow2_32; lia).
    rewrite udiv_small by (rewrite pow2_32; lia).
    do 2 f_equal.
    replace (d mod 65535 * 64) with (4 * (d mod 65535) * 16) by lia.
    apply Z.div_mul. discriminate.
  - parse_tokens. eval_step. rewrite (in_range_ulong d H). run_eval.
    rewrite udiv_to_ulong_l, udiv_small by (rewrite ?pow2_32; lia).
    reflexivity.
  - parse_tokens. eval_step. rewrite (in_range_ulong d H). run_eval.
    rewrite to_ulong_idem, to_ulong_small by exact H.
    reflexivity.
  - rewrite MAX_USEC_val. split.
    + intros E. destruct (Z_lt_ge_dec d 65535) as [L | G]; [exact L|].
      exfalso.
      pose proof (Z.div_le_lower_bound d 65535 1 ltac:(reflexivity)
                    ltac:(lia)).
      pose proof (Z.div_le_compat_l d 65535 262140 ltac:(lia) ltac:(lia)).
      lia.
    + intros L. rewrite !Z.div_small by lia. reflexivity.
Qed.

Lemma MAX_USEC_as_divisor_witness :
  eval_tokens (bind "d" 500000 ULong32 no_vars)
    [TId "d"; TOp ODiv; TId "MAX_USEC"] = Some (28, ULong32) /\
  eval_tokens (bind "d" 500000 ULong32 no_vars)
    [TId "d"; TOp ODiv; TLParen; TId "MAX_USEC"; TRParen] = Some (1, ULong32).
Proof.
  destruct (MAX_USEC_as_divisor 500000) as (H1 & _ & H2 & _);
    [split; [discriminate | reflexivity]|].
  split; [exact H1 | exact H2].
Defined.

(** X12: The parameter has no parentheses of its own inside the two conversion
    macros.  With a sum as argument only the second summand is multiplied:
    MSEC_TO_CLK(a + b) is (a + b * F_CPU) / 64000 and USEC_TO_CLK(a + b) is
    (a + b * FM_CPU) / 64.  For milliseconds within range, a >= 1 is lost
    altogether; with the argument written (a + b) the macros convert the
    sum. *)
Theorem conversion_macros_sum_argument (a b : Z) :
  0 <= a < 2 ^ 32 -> 0 <= b < 2 ^ 32 ->
  let e := bind "a" a ULong32 (bind "b" b ULong32 no_vars) in
  eval_tokens e (invoke MSEC_TO_CLK_macro [TId "a"; TOp OAdd; TId "b"])
  = Some (udiv (uadd a (umul b F_CPU)) (umul 1000 TIMER_PRESCALER), ULong32) /\
  eval_tokens e (invoke USEC_TO_CLK_macro [TId "a"; TOp OAdd; TId "b"])
  = Some (udiv (uadd a (umul b FM_CPU)) TIMER_PRESCALER, ULong32) /\
  eval_tokens e
    (invoke MSEC_TO_CLK_macro [TLParen; TId "a"; TOp OAdd; TId "b"; TRParen])
  = Some (MSEC_TO_CLK (uadd a b), ULong32) /\
  eval_tokens e
    (invoke USEC_TO_CLK_macro [TLParen; TId "a"; TOp OAdd; TId "b"; TRParen])
  = Some (USEC_TO_CLK (uadd a b), ULong32) /\
  (a + b <= 268 ->
   udiv (uadd a (umul b F_CPU)) (umul 1000 TIMER_PRESCALER) = 250 * b /\
   MSEC_TO_CLK (uadd a b) = 250 * (a + b)).
Proof.
  intros Ha Hb e. subst e.
  pose proof (in_range_ulong a Ha) as Ra.
  pose proof (in_range_ulong b Hb) as Rb.
  split; [|split; [|split; [|split]]].
  - parse_tokens. eval_step. rewrite Ra, Rb. run_eval.
    rewrite to_ulong_uadd, to_ulong_umul, umul_to_ulong_l.
    rewrite (to_ulong_small a) by exact Ha. reflexivity.
  - parse_tokens. eval_step. rewrite Ra, Rb. run_eval.
    rewrite to_ulong_uadd, to_ulong_umul, umul_to_ulong_l.
    rewrite (to_ulong_small a) by exact Ha. reflexivity.
  - parse_tokens. eval_step. rewrite Ra, Rb. run_eval.
    rewrite to_ulong_umul, to_ulong_uadd.
    rewrite (to_ulong_small a), (to_ulong_small b) by assumption.
    reflexivity.
  - parse_tokens. eval_step. rewrite Ra, Rb. run_eval.
    rewrite to_ulong_umul, to_ulong_uadd.
    rewrite (to_ulong_small a), (to_ulong_small b) by assumption.
    reflexivity.
  - intros Hs. rewrite pow2_32 in Ha, Hb. split.
    + change (umul 1000 TIMER_PRESCALER) with 64000. unfold F_CPU.
      rewrite (umul_small b) by (rewrite pow2_32; lia).
      rewrite uadd_small by (rewrite pow2_32; lia).
      rewrite udiv_small by (rewrite pow2_32; lia).
      replace (a + b * 16000000) with (a + 250 * b * 64000) by lia.
      rewrite Z.div_add by discriminate.
      rewrite Z.div_small by lia. lia.
    + rewrite uadd_small by (rewrite pow2_32; lia).
      apply MSEC_TO_CLK_small. lia.
Qed.

Lemma conversion_macros_sum_argument_witness :
  eval_tokens (bind "a" 1 ULong32 (bind "b" 1 ULong32 no_vars))
    (invoke MSEC_TO_CLK_macro [TId "a"; TOp OAdd; TId "b"])
  = Some (250, ULong32) /\
  MSEC_TO_CLK (uadd 1 1) = 500.
Proof.
  destruct (conversion_macros_sum_argument 1 1) as (H1 & _ & _ & _ & H2);
    [split; [discriminate | reflexivity] ..|].
  split; [exact H1|]. apply H2. discriminate.
Defined.

(** X13: An argument made of int constants is computed in 16-bit int before the
    macro's unsigned long arithmetic sees it.  USEC_TO_CLK(1000 * k) with
    an int k has a value, 250 * k, only up to k = 32; from 33 on the product
    overflows int and the expression has no defined value.  With k of type
    unsigned long it is MSEC_TO_CLK(k) up to 268. *)
Theorem USEC_TO_CLK_int_argument (k : Z) :
  0 <= k < 2 ^ 15 ->
  eval_tokens no_vars
    (invoke USEC_TO_CLK_macro [TNum 1000 Int16; TOp OMul; TNum k Int16])
  = (if k <=? 32 then Some (250 * k, ULong32) else None) /\
  (k <= 268 ->
   eval_tokens no_vars
     (invoke USEC_TO_CLK_macro [TNum 1000 Int16; TOp OMul; TNum k ULong32])
   = Some (MSEC_TO_CLK k, ULong32)).
Proof.
  intros H. change (2 ^ 15) with 32768 in H.
  assert (Rk : in_range Int16 k = true) by (apply in_range_int; lia).
  split.
  - parse_tokens. eval_step. rewrite Rk. run_eval.
    destruct (Z.leb_spec k 32) as [L | G].
    + assert (R : in_range Int16 (1000 * k) = true)
        by (apply in_range_int; lia).
      rewrite R. run_eval.
      rewrite udiv_to_ulong_l, umul_to_ulong_l.
      rewrite umul_small by (rewrite pow2_32; lia).
      rewrite udiv_small by (rewrite pow2_32; lia).
      do 2 f_equal.
      replace (1000 * k * 16) with (250 * k * 64) by lia.
      apply Z.div_mul. discriminate.
    + destruct (in_range Int16 (1000 * k)) eqn:R; [|reflexivity].
      apply in_range_int in R. lia.
  - intros L.
    assert (Ru : in_range ULong32 k = true)
      by (apply in_range_ulong; rewrite pow2_32; lia).
    parse_tokens. eval_step. rewrite Ru. run_eval.
    rewrite udiv_to_ulong_l, umul_to_ulong_l.
    rewrite (to_ulong_small k) by (rewrite pow2_32; lia).
    rewrite MSEC_TO_CLK_small by lia. do 2 f_equal.
    rewrite (umul_small 1000) by (rewrite pow2_32; lia).
    rewrite umul_small by (rewrite pow2_32; lia).
    rewrite udiv_small by (rewrite pow2_32; lia).
    replace (1000 * k * 16) with (250 * k * 64) by lia.
    apply Z.div_mul. discriminate.
Qed.

Lemma USEC_TO_CLK_int_argument_witness :
  eval_tokens no_vars
    (invoke USEC_TO_CLK_macro [TNum 1000 Int16; TOp OMul; TNum 33 Int16])
  = None /\
  eval_tokens no_vars
    (invoke USEC_TO_CLK_macro [TNum 1000 Int16; TOp OMul; TNum 33 ULong32])
  = Some (8250, ULong32).
Proof.
  destruct (USEC_TO_CLK_int_argument 33) as (H1 & H2);
    [split; [discriminate | reflexivity]|].
  split; [exact H1|]. apply H2. discriminate.
Defined.
End MacroText.
